(** * LGraphGroup: the group region of the graph editor

    A shallow embedding of [src/LGraphGroup.ts] and the properties its
    specification states about it.

    Numbers.  A JavaScript number is modelled as an exact rational, or one of
    the three special values [Infinity], [-Infinity] and [NaN]; arithmetic,
    comparison, [Math.min], [Math.max] and [Math.round] follow ECMAScript on
    these values.  Binary rounding (of doubles, and of the single-precision
    slots of a [Float32Array]) and the sign of zero are outside the model.

    Objects.  Nodes are mutable objects shared by the graph, the group's
    member list and the callers: they live in a heap indexed by references,
    and every list of nodes is a list of references. *)

From Stdlib Require Import QArith Qcanon Qround Lqa Lia.
From stdpp Require Import base option list numbers gmap strings fin_maps.

(** ** JavaScript numbers *)

Inductive number : Type :=
  | Fin (q : Qc)
  | PosInf
  | NegInf
  | NaN.

Declare Scope js_scope.
Delimit Scope js_scope with js.
Bind Scope js_scope with number.

Definition num_of_Z (z : Z) : number := Fin (Qc_of_Z z).
Coercion num_of_Z : Z >-> number.

Definition Qcmax (p q : Qc) : Qc := if decide (p ≤ q)%Qc then q else p.
Definition Qcmin (p q : Qc) : Qc := if decide (p ≤ q)%Qc then p else q.

(** The greatest integer below a rational, and the nearest integer, a tie
    going up. *)
Definition Qcfloor (q : Qc) : Z := Qfloor q.
Definition Qcround (q : Qc) : Qc := Qc_of_Z (Qcfloor (q + Q2Qc (1 # 2))%Qc).

Definition num_add (a b : number) : number :=
  match a, b with
  | NaN, _ | _, NaN => NaN
  | Fin p, Fin q => Fin (p + q)
  | PosInf, NegInf | NegInf, PosInf => NaN
  | PosInf, _ | _, PosInf => PosInf
  | NegInf, _ | _, NegInf => NegInf
  end.

Definition num_sub (a b : number) : number :=
  match a, b with
  | NaN, _ | _, NaN => NaN
  | Fin p, Fin q => Fin (p - q)
  | PosInf, PosInf | NegInf, NegInf => NaN
  | PosInf, _ | _, NegInf => PosInf
  | NegInf, _ | _, PosInf => NegInf
  end.

(** The product of an infinity with a factor of the given sign. *)
Definition inf_of_sign (c : comparison) : number :=
  match c with Gt => PosInf | Lt => NegInf | Eq => NaN end.

Definition num_mul (a b : number) : number :=
  match a, b with
  | NaN, _ | _, NaN => NaN
  | Fin p, Fin q => Fin (p * q)
  | Fin p, PosInf | PosInf, Fin p => inf_of_sign (p ?= 0)%Qc
  | Fin p, NegInf | NegInf, Fin p => inf_of_sign (CompOpp (p ?= 0)%Qc)
  | PosInf, PosInf | NegInf, NegInf => PosInf
  | PosInf, NegInf | NegInf, PosInf => NegInf
  end.

(** [a < b]; every comparison with [NaN] is false. *)
Definition num_ltb (a b : number) : bool :=
  match a, b with
  | NaN, _ | _, NaN => false
  | Fin p, Fin q => bool_decide (p < q)%Qc
  | PosInf, _ | _, NegInf => false
  | NegInf, _ | Fin _, PosInf => true
  end.

(** [a <= b]. *)
Definition num_leb (a b : number) : bool :=
  match a, b with
  | NaN, _ | _, NaN => false
  | Fin p, Fin q => bool_decide (p ≤ q)%Qc
  | NegInf, _ | _, PosInf => true
  | PosInf, _ | Fin _, NegInf => false
  end.

(** [Math.max(a, b)] and [Math.min(a, b)]: [NaN] as soon as an argument is. *)
Definition Math_max (a b : number) : number :=
  match a, b with
  | NaN, _ | _, NaN => NaN
  | PosInf, _ | _, PosInf => PosInf
  | NegInf, c | c, NegInf => c
  | Fin p, Fin q => Fin (Qcmax p q)
  end.

Definition Math_min (a b : number) : number :=
  match a, b with
  | NaN, _ | _, NaN => NaN
  | NegInf, _ | _, NegInf => NegInf
  | PosInf, c | c, PosInf => c
  | Fin p, Fin q => Fin (Qcmin p q)
  end.

(** [Math.round(a)] *)
Definition Math_round (a : number) : number :=
  match a with
  | Fin q => Fin (Qcround q)
  | _ => a
  end.

(** [ToBoolean] of a number: false for zero and [NaN]. *)
Definition num_truthy (a : number) : bool :=
  match a with
  | Fin q => negb (bool_decide (q = 0%Qc))
  | NaN => false
  | _ => true
  end.

Infix "+" := num_add : js_scope.
Infix "-" := num_sub : js_scope.
Infix "*" := num_mul : js_scope.
Infix "<?" := num_ltb : js_scope.
Infix "<=?" := num_leb : js_scope.

(** [ToNumber] of an element read from an array: a missing element is
    [undefined], which converts to [NaN]. *)
Definition ToNumber (o : option number) : number := default NaN o.

(** ** Other JavaScript values, as they occur in a flags bag *)

Inductive value : Type :=
  | VUndefined
  | VNull
  | VBool (b : bool)
  | VNumber (n : number)
  | VString (s : string)
  | VObject.

Definition ToBoolean (v : value) : bool :=
  match v with
  | VUndefined | VNull => false
  | VBool b => b
  | VNumber n => num_truthy n
  | VString s => negb (String.eqb s "")
  | VObject => true
  end.

(** [bag.key] read for its truth value; an absent key reads [undefined]. *)
Definition flag_set (key : string) (bag : gmap string value) : bool :=
  match bag !! key with
  | Some v => ToBoolean v
  | None => false
  end.

(** ** The four-slot buffer and its two views *)

(** [new Float32Array(4)]. *)
Record Float32Array4 : Type := Buf {
  slot0 : number;
  slot1 : number;
  slot2 : number;
  slot3 : number
}.

Definition buf_get (i : nat) (b : Float32Array4) : option number :=
  match i with
  | 0 => Some (slot0 b)
  | 1 => Some (slot1 b)
  | 2 => Some (slot2 b)
  | 3 => Some (slot3 b)
  | _ => None
  end.

(** A write past the end of a typed array is ignored. *)
Definition buf_set (i : nat) (x : number) (b : Float32Array4) : Float32Array4 :=
  match i with
  | 0 => Buf x (slot1 b) (slot2 b) (slot3 b)
  | 1 => Buf (slot0 b) x (slot2 b) (slot3 b)
  | 2 => Buf (slot0 b) (slot1 b) x (slot3 b)
  | 3 => Buf (slot0 b) (slot1 b) (slot2 b) x
  | _ => b
  end.

(** [b.subarray(off, off + len)]: a window on the same storage. *)
Record view : Type := View { view_off : nat; view_len : nat }.

Definition view_get (vw : view) (i : nat) (b : Float32Array4) : option number :=
  if (i <? view_len vw)%nat then buf_get (view_off vw + i) b else None.

Definition view_set (vw : view) (i : nat) (x : number) (b : Float32Array4)
  : Float32Array4 :=
  if (i <? view_len vw)%nat then buf_set (view_off vw + i) x b else b.

(** [b.set(src)]: copies [src] to the front; [None] is the [RangeError] of a
    source longer than the buffer. *)
Fixpoint buf_write_from (i : nat) (src : list number) (b : Float32Array4)
  : Float32Array4 :=
  match src with
  | [] => b
  | x :: rest => buf_write_from (S i) rest (buf_set i x b)
  end.

Definition buf_set_all (src : list number) (b : Float32Array4)
  : option Float32Array4 :=
  if (4 <? length src)%nat then None else Some (buf_write_from 0 src b).

(** ** Nodes, the graph and the heap *)

Abbreviation ref := nat.

Module LGraphNode.

(** The part of a node the group reads or writes. *)
Record t : Type := Make {
  pos : number * number;
  size : number * number;
  type : option string;
  flags : option (gmap string value);
  _collapsed_width : option number
}.

Definition with_pos (p : number * number) (n : t) : t :=
  Make p (size n) (type n) (flags n) (_collapsed_width n).

End LGraphNode.

Module LGraph.

(** The part of the owning graph the group reads: its ordered node list. *)
Record t : Type := Make { _nodes : list ref }.

End LGraph.

(** ** The group *)

Record LGraphGroup : Type := Group {
  color : string;
  title : string;
  font : option string;
  font_size : number;
  _bounding : Float32Array4;
  _nodes : option (list ref);
  graph : option LGraph.t;
  flags : gmap string value;
  selected : option bool
}.

(** [_pos = _bounding.subarray(0, 2)] and [_size = _bounding.subarray(2, 4)]. *)
Definition _pos : view := View 0 2.
Definition _size : view := View 2 2.

Definition with_title (s : string) (g : LGraphGroup) : LGraphGroup :=
  Group (color g) s (font g) (font_size g) (_bounding g) (_nodes g) (graph g)
        (flags g) (selected g).
Definition with_color (s : string) (g : LGraphGroup) : LGraphGroup :=
  Group s (title g) (font g) (font_size g) (_bounding g) (_nodes g) (graph g)
        (flags g) (selected g).
Definition with_font_size (x : number) (g : LGraphGroup) : LGraphGroup :=
  Group (color g) (title g) (font g) x (_bounding g) (_nodes g) (graph g)
        (flags g) (selected g).
Definition with_bounding (b : Float32Array4) (g : LGraphGroup) : LGraphGroup :=
  Group (color g) (title g) (font g) (font_size g) b (_nodes g) (graph g)
        (flags g) (selected g).
Definition with_nodes (ns : option (list ref)) (g : LGraphGroup) : LGraphGroup :=
  Group (color g) (title g) (font g) (font_size g) (_bounding g) ns (graph g)
        (flags g) (selected g).
Definition with_flags (f : gmap string value) (g : LGraphGroup) : LGraphGroup :=
  Group (color g) (title g) (font g) (font_size g) (_bounding g) (_nodes g)
        (graph g) f (selected g).

(** The group and the nodes it can reach. *)
Record World : Type := Mk_world {
  group : LGraphGroup;
  heap : gmap nat LGraphNode.t
}.

Inductive error : Type := TypeError | RangeError.

(** How a method call ends, and the state it leaves. *)
Inductive Outcome : Type :=
  | Returned (w : World)
  | Threw (e : error) (w : World).

Definition world_of (o : Outcome) : World :=
  match o with Returned w | Threw _ w => w end.

(** What a saved group looks like ([ISerialisedGroup]); [flags] and
    [font_size] may be absent from a record written by hand. *)
Module ISerialisedGroup.

Record t : Type := Make {
  title : string;
  bounding : list number;
  color : string;
  font_size : option number;
  flags : option (gmap string value)
}.

End ISerialisedGroup.

(** The accumulator of the fold in [addNodes]. *)
Module Bounds.

Record t : Type := Make {
  left : number;
  top : number;
  right : number;
  bottom : number
}.

End Bounds.

(** ** Helpers of [measure.ts] *)

(** Modelled from the spec: [overlapBounding] of [measure.ts] is not part of
    the sources at hand.  Two boxes [[x, y, width, height]] overlap when their
    intersection has a positive area, so a box of zero width or height
    overlaps nothing. *)
Definition overlapBounding (a b : Float32Array4) : bool :=
  (Math_max (slot0 a) (slot0 b)
     <? Math_min (slot0 a + slot2 a) (slot0 b + slot2 b))%js
  && (Math_max (slot1 a) (slot1 b)
        <? Math_min (slot1 a + slot3 a) (slot1 b + slot3 b))%js.

(** Modelled from the spec: [isInsideRectangle] of [measure.ts] is not part of
    the sources at hand.  An axis-aligned rectangle test whose boundary points
    count as inside. *)
Definition isInsideRectangle (x y left top width height : number) : bool :=
  (left <=? x)%js && (x <=? left + width)%js
  && (top <=? y)%js && (y <=? top + height)%js.

(** ** The methods of the group *)

Section Methods.

(** Constants and collaborators that live outside [LGraphGroup.ts]. *)
Variable NODE_TITLE_HEIGHT : number.
Variable DEFAULT_GROUP_FONT : number.
Variable pale_blue_groupcolor : option string.
Variable getBounding : LGraphNode.t -> Float32Array4.

Definition _ctor (title : option string) : LGraphGroup :=
  {| title := match title with
              | Some s => if String.eqb s "" then "Group" else s
              | None => "Group"
              end;
     font := None;
     font_size := if num_truthy DEFAULT_GROUP_FONT
                  then DEFAULT_GROUP_FONT else 24%Z;
     color := default "#AAA" pale_blue_groupcolor;
     _bounding := Buf 10%Z 10%Z 140%Z 80%Z;
     _nodes := Some [];
     graph := None;
     flags := ∅;
     selected := None |}.

(** [set pos(v)] *)
Definition set_pos (v : option (list number)) (g : LGraphGroup) : LGraphGroup :=
  match v with
  | None => g
  | Some v =>
      if (length v <? 2)%nat then g
      else
        let b := view_set _pos 0 (ToNumber (v !! 0%nat)) (_bounding g) in
        let b := view_set _pos 1 (ToNumber (v !! 1%nat)) b in
        with_bounding b g
  end.

(** [set size(v)] *)
Definition set_size (v : option (list number)) (g : LGraphGroup) : LGraphGroup :=
  match v with
  | None => g
  | Some v =>
      if (length v <? 2)%nat then g
      else
        let b := view_set _size 0
                   (Math_max 140%Z (ToNumber (v !! 0%nat))) (_bounding g) in
        let b := view_set _size 1
                   (Math_max 80%Z (ToNumber (v !! 1%nat))) b in
        with_bounding b g
  end.

(** [get pos()] and [get size()], read as pairs. *)
Definition get_pos (g : LGraphGroup) : number * number :=
  (ToNumber (view_get _pos 0 (_bounding g)),
   ToNumber (view_get _pos 1 (_bounding g))).

Definition get_size (g : LGraphGroup) : number * number :=
  (ToNumber (view_get _size 0 (_bounding g)),
   ToNumber (view_get _size 1 (_bounding g))).

(** [get titleHeight()] *)
Definition titleHeight (g : LGraphGroup) : number :=
  (font_size g * Fin (Q2Qc (7 # 5)))%js.

(** [get pinned()] *)
Definition pinned (g : LGraphGroup) : bool := flag_set "pinned" (flags g).

Definition pin (g : LGraphGroup) : LGraphGroup :=
  with_flags (<["pinned" := VBool true]> (flags g)) g.

Definition unpin (g : LGraphGroup) : LGraphGroup :=
  with_flags (delete "pinned" (flags g)) g.

(** [configure(o)]; the title is already overwritten when [set] throws. *)
Definition configure (o : ISerialisedGroup.t) (w : World) : Outcome :=
  let g := with_title (ISerialisedGroup.title o) (group w) in
  match buf_set_all (ISerialisedGroup.bounding o) (_bounding g) with
  | None => Threw RangeError (Mk_world g (heap w))
  | Some b =>
      let g := with_bounding b g in
      let g := with_color (ISerialisedGroup.color o) g in
      let g := with_flags (default (flags g) (ISerialisedGroup.flags o)) g in
      let g := match ISerialisedGroup.font_size o with
               | Some fs => if num_truthy fs then with_font_size fs g else g
               | None => g
               end in
      Returned (Mk_world g (heap w))
  end.

(** [serialize()] *)
Definition serialize (g : LGraphGroup) : ISerialisedGroup.t :=
  let b := _bounding g in
  {| ISerialisedGroup.title := title g;
     ISerialisedGroup.bounding :=
       [Math_round (ToNumber (buf_get 0 b));
        Math_round (ToNumber (buf_get 1 b));
        Math_round (ToNumber (buf_get 2 b));
        Math_round (ToNumber (buf_get 3 b))];
     ISerialisedGroup.color := color g;
     ISerialisedGroup.font_size := Some (font_size g);
     ISerialisedGroup.flags := Some (flags g) |}.

(** [resize(width, height)] *)
Definition resize (width height : number) (g : LGraphGroup) : LGraphGroup :=
  if pinned g then g
  else
    let b := view_set _size 0 width (_bounding g) in
    let b := view_set _size 1 height b in
    with_bounding b g.

(** The body of the loop of [move]: [node.pos[0] += deltax] and
    [node.pos[1] += deltay] on the object behind the reference. *)
Definition shift_node (deltax deltay : number) (n : LGraphNode.t)
  : LGraphNode.t :=
  LGraphNode.with_pos
    ((fst (LGraphNode.pos n) + deltax)%js, (snd (LGraphNode.pos n) + deltay)%js)
    n.

Definition shift_nodes (deltax deltay : number) (members : list ref)
    (h : gmap nat LGraphNode.t) : gmap nat LGraphNode.t :=
  foldl (fun h r => alter (shift_node deltax deltay) r h) h members.

(** [move(deltax, deltay, ignore_nodes = false)] *)
Definition move (deltax deltay : number) (ignore_nodes : bool) (w : World)
  : Outcome :=
  let g := group w in
  if pinned g then Returned w
  else
    let b := _bounding g in
    let b := view_set _pos 0 (ToNumber (view_get _pos 0 b) + deltax)%js b in
    let b := view_set _pos 1 (ToNumber (view_get _pos 1 b) + deltay)%js b in
    let g := with_bounding b g in
    if ignore_nodes then Returned (Mk_world g (heap w))
    else
      match _nodes g with
      | None => Threw TypeError (Mk_world g (heap w))
      | Some members =>
          Returned (Mk_world g (shift_nodes deltax deltay members (heap w)))
      end.

(** The loop of [recomputeInsideNodes]: the nodes pushed so far, and whether
    the scan reached the end of the list ([false]: an entry was not a node). *)
Fixpoint scan_nodes (h : gmap nat LGraphNode.t) (b : Float32Array4)
    (nodes : list ref) (inside : list ref) : bool * list ref :=
  match nodes with
  | [] => (true, inside)
  | r :: rest =>
      match h !! r with
      | None => (false, inside)
      | Some node =>
          if negb (overlapBounding b (getBounding node))
          then scan_nodes h b rest inside
          else scan_nodes h b rest (inside ++ [r])
      end
  end.

(** [recomputeInsideNodes()] *)
Definition recomputeInsideNodes (w : World) : Outcome :=
  let g := group w in
  match _nodes g with
  | None => Threw TypeError w
  | Some _ =>
      let g := with_nodes (Some []) g in
      match graph g with
      | None => Threw TypeError (Mk_world g (heap w))
      | Some gr =>
          let '(finished, inside) :=
            scan_nodes (heap w) (_bounding g) (LGraph._nodes gr) [] in
          let w' := Mk_world (with_nodes (Some inside) g) (heap w) in
          if finished then Returned w' else Threw TypeError w'
      end
  end.

(** The callback given to [reduce] in [addNodes]. *)
Definition bounds_step (acc : Bounds.t) (node : LGraphNode.t) : Bounds.t :=
  let '(x, y) := LGraphNode.pos node in
  let '(width, height) := LGraphNode.size node in
  let isReroute :=
    match LGraphNode.type node with
    | Some s => String.eqb s "Reroute"
    | None => false
    end in
  let isCollapsed :=
    match LGraphNode.flags node with
    | Some bag => flag_set "collapsed" bag
    | None => false
    end in
  let top := (y - (if isReroute then 0%Z : number else NODE_TITLE_HEIGHT))%js in
  let bottom :=
    if isCollapsed then (top + NODE_TITLE_HEIGHT)%js else (y + height)%js in
  let right :=
    if isCollapsed
       && match LGraphNode._collapsed_width node with
          | Some cw => num_truthy cw
          | None => false
          end
    then (x + Math_round (ToNumber (LGraphNode._collapsed_width node)))%js
    else (x + width)%js in
  {| Bounds.left := Math_min (Bounds.left acc) x;
     Bounds.top := Math_min (Bounds.top acc) top;
     Bounds.right := Math_max (Bounds.right acc) right;
     Bounds.bottom := Math_max (Bounds.bottom acc) bottom |}.

(** [allNodes.reduce(callback, acc)]; [None] when an entry is not a node. *)
Fixpoint reduce_bounds (h : gmap nat LGraphNode.t) (allNodes : list ref)
    (acc : Bounds.t) : option Bounds.t :=
  match allNodes with
  | [] => Some acc
  | r :: rest =>
      match h !! r with
      | None => None
      | Some node => reduce_bounds h rest (bounds_step acc node)
      end
  end.

(** [!this._nodes]: an array, even an empty one, is truthy. *)
Definition no_array (o : option (list ref)) : bool :=
  match o with
  | None => true
  | Some _ => false
  end.

(** [addNodes(nodes, padding = 10)] *)
Definition addNodes (nodes : list ref) (padding : option number) (w : World)
  : Outcome :=
  let padding := default (10%Z : number) padding in
  let g := group w in
  if no_array (_nodes g) && (length nodes =? 0)%nat then Returned w
  else
    let allNodes := default [] (_nodes g) ++ nodes in
    match reduce_bounds (heap w) allNodes
            {| Bounds.left := PosInf; Bounds.top := PosInf;
               Bounds.right := NegInf; Bounds.bottom := NegInf |} with
    | None => Threw TypeError w
    | Some bounds =>
        let g :=
          set_pos
            (Some [ (Bounds.left bounds - padding)%js;
                    (Bounds.top bounds - padding - titleHeight g)%js ]) g in
        let g :=
          set_size
            (Some [ (Bounds.right bounds - Bounds.left bounds
                       + padding * 2%Z)%js;
                    (Bounds.bottom bounds - Bounds.top bounds + padding * 2%Z
                       + titleHeight g)%js ]) g in
        Returned (Mk_world g (heap w))
    end.

(** [isPointInTitlebar(x, y)] *)
Definition isPointInTitlebar (x y : number) (g : LGraphGroup) : bool :=
  let b := _bounding g in
  isInsideRectangle x y
    (ToNumber (buf_get 0 b)) (ToNumber (buf_get 1 b)) (ToNumber (buf_get 2 b))
    (titleHeight g).

End Methods.

(** ** Sequences of calls made by the editor *)

Inductive call : Type :=
  | Call_move (deltax deltay : number) (ignore_nodes : bool)
  | Call_resize (width height : number).

Definition run_call (c : call) (w : World) : Outcome :=
  match c with
  | Call_move dx dy ign => move dx dy ign w
  | Call_resize width height =>
      Returned (Mk_world (resize width height (group w)) (heap w))
  end.

(** A caller that goes on after a call threw still sees the state the call
    left: the sequence is run on the state each call leaves. *)
Definition run_calls (cs : list call) (w : World) : World :=
  foldl (fun w c => world_of (run_call c w)) w cs.

(** ** Notions the properties are stated with *)

(** The test [recomputeInsideNodes] applies to the node behind a reference. *)
Definition node_inside (getBounding : LGraphNode.t -> Float32Array4)
    (h : gmap nat LGraphNode.t) (b : Float32Array4) (r : ref) : bool :=
  match h !! r with
  | Some node => overlapBounding b (getBounding node)
  | None => false
  end.

(** The rectangle from (x0, y0) to (x1, y1) lies in the box [a]. *)
Definition box_contains (a : Float32Array4) (x0 y0 x1 y1 : Qc) : Prop :=
  (slot0 a <=? Fin x0)%js = true
  ∧ (Fin x1 <=? slot0 a + slot2 a)%js = true
  ∧ (slot1 a <=? Fin y0)%js = true
  ∧ (Fin y1 <=? slot1 a + slot3 a)%js = true.

(** Two boxes share a rectangle of positive width and height. *)
Definition positive_area_intersection (a b : Float32Array4) : Prop :=
  ∃ x0 y0 x1 y1 : Qc,
    (x0 < x1)%Qc ∧ (y0 < y1)%Qc
    ∧ box_contains a x0 y0 x1 y1 ∧ box_contains b x0 y0 x1 y1.

(** A box of no width or no height. *)
Definition zero_extent (a : Float32Array4) : Prop :=
  slot2 a = 0%Z ∨ slot3 a = 0%Z.

(** The edges of a node in the words of the specification; [H] is the
    title height constant of the editor. *)
Definition is_reroute (n : LGraphNode.t) : bool :=
  match LGraphNode.type n with
  | Some s => String.eqb s "Reroute"
  | None => false
  end.

Definition is_collapsed (n : LGraphNode.t) : bool :=
  match LGraphNode.flags n with
  | Some bag => flag_set "collapsed" bag
  | None => false
  end.

(** The collapsed width a node reports; a width of zero reports nothing. *)
Definition collapsed_width_hint (n : LGraphNode.t) : option number :=
  match LGraphNode._collapsed_width n with
  | Some cw => if num_truthy cw then Some cw else None
  | None => None
  end.

Definition edge_left (n : LGraphNode.t) : number := fst (LGraphNode.pos n).

Definition edge_top (H : number) (n : LGraphNode.t) : number :=
  if is_reroute n then snd (LGraphNode.pos n)
  else (snd (LGraphNode.pos n) - H)%js.

Definition edge_bottom (H : number) (n : LGraphNode.t) : number :=
  if is_collapsed n then (edge_top H n + H)%js
  else (snd (LGraphNode.pos n) + snd (LGraphNode.size n))%js.

Definition edge_right (n : LGraphNode.t) : number :=
  match (if is_collapsed n then collapsed_width_hint n else None) with
  | Some cw => (fst (LGraphNode.pos n) + Math_round cw)%js
  | None => (fst (LGraphNode.pos n) + fst (LGraphNode.size n))%js
  end.

(** The running minimum and maximum of one edge over the nodes. *)
Definition running_min (edge : LGraphNode.t -> number) (ns : list LGraphNode.t)
  : number :=
  foldl (fun acc n => Math_min acc (edge n)) PosInf ns.

Definition running_max (edge : LGraphNode.t -> number) (ns : list LGraphNode.t)
  : number :=
  foldl (fun acc n => Math_max acc (edge n)) NegInf ns.

(** The group is at least as large as the size setter makes it. *)
Definition meets_minimum_size (g : LGraphGroup) : bool :=
  (140%Z <=? fst (get_size g))%js && (80%Z <=? snd (get_size g))%js.

(** A value [Math.round] leaves as it is: an integer, an infinity or [NaN]. *)
Definition is_rounded (a : number) : Prop := Math_round a = a.

(** Every edge of the node is a rational. *)
Definition has_rational_edges (H : number) (n : LGraphNode.t) : Prop :=
  ∃ l t r b : Qc,
    edge_left n = Fin l ∧ edge_top H n = Fin t
    ∧ edge_right n = Fin r ∧ edge_bottom H n = Fin b.

(** ** Sample groups, nodes and worlds *)

(** A freshly built group: [new LGraphGroup()] with the stock settings. *)
Definition fresh_group : LGraphGroup := _ctor 24%Z None None.

(** A plain node at (100, 100), 80 wide and 40 high. *)
Definition plain_node : LGraphNode.t :=
  LGraphNode.Make (100%Z : number, 100%Z : number)
                  (80%Z : number, 40%Z : number)
                  (Some "basic/sum") (Some ∅) None.

(** A tall node shown collapsed, 75.5 wide while collapsed. *)
Definition collapsed_node : LGraphNode.t :=
  LGraphNode.Make (300%Z : number, 50%Z : number)
                  (200%Z : number, 400%Z : number)
                  (Some "basic/watch")
                  (Some {[ "collapsed" := VBool true ]})
                  (Some (Fin (Q2Qc (151 # 2)))).

(** A reroute node, which has no title bar. *)
Definition reroute_node : LGraphNode.t :=
  LGraphNode.Make (20%Z : number, 30%Z : number)
                  (75%Z : number, 26%Z : number)
                  (Some "Reroute") None None.

Definition sample_heap : gmap nat LGraphNode.t :=
  {[ 1%nat := plain_node; 2%nat := collapsed_node; 3%nat := reroute_node ]}.

(** The bounding box of a node as the editor draws it: the body plus the
    title bar above it (30 units in the stock settings). *)
Definition sample_getBounding (n : LGraphNode.t) : Float32Array4 :=
  Buf (fst (LGraphNode.pos n))
      (snd (LGraphNode.pos n) - 30%Z)%js
      (fst (LGraphNode.size n))
      (snd (LGraphNode.size n) + 30%Z)%js.

(** ** Arithmetic on numbers *)

(** Goals on canonical rationals, sent to the rationals they stand for. *)
Ltac qc_arith :=
  repeat match goal with
         | |- @eq Qc _ _ => apply Qc_is_canon
         | |- ~ @eq Qc _ _ => let H := fresh in intros H
         | H : @eq Qc _ _ |- _ => apply (f_equal this) in H
         | H : ~ (_ ≤ _)%Qc |- _ => apply Qcnot_le_lt in H
         | H : ~ (_ < _)%Qc |- _ => apply Qcnot_lt_le in H
         end;
  unfold Qcle, Qclt, Qcminus, Qcplus, Qcopp, Qcmult, Qc_of_Z, Q2Qc in *;
  cbn [this] in *;
  rewrite ?Qred_correct in *;
  unfold inject_Z in *;
  lra.

Lemma Qcmax_spec (p q : Qc) :
  (p ≤ Qcmax p q)%Qc ∧ (q ≤ Qcmax p q)%Qc ∧ (Qcmax p q = p ∨ Qcmax p q = q).
Proof.
  unfold Qcmax. case_decide as Hle.
  - repeat split; [done | apply Qcle_refl | by right].
  - repeat split; [apply Qcle_refl | qc_arith | by left].
Qed.

Lemma Qcmin_spec (p q : Qc) :
  (Qcmin p q ≤ p)%Qc ∧ (Qcmin p q ≤ q)%Qc ∧ (Qcmin p q = p ∨ Qcmin p q = q).
Proof.
  unfold Qcmin. case_decide as Hle.
  - repeat split; [apply Qcle_refl | done | by left].
  - repeat split; [qc_arith | apply Qcle_refl | by right].
Qed.

Lemma num_sub_0_r (a : number) : (a - 0%Z)%js = a.
Proof. destruct a; simpl; [f_equal; qc_arith | done..]. Qed.

Lemma num_mul_2_comm (a : number) : (a * 2%Z)%js = (2%Z * a)%js.
Proof. destruct a; simpl; [f_equal; apply Qcmult_comm | done..]. Qed.

(** ** The size setter clamps; [resize] does not *)



(** ** Pinned groups *)

Lemma pinned_pin (g : LGraphGroup) : pinned (pin g) = true.
Proof. unfold pinned, pin, flag_set; simpl. by rewrite lookup_insert_eq. Qed.

Lemma pinned_unpin (g : LGraphGroup) : pinned (unpin g) = false.
Proof. unfold pinned, unpin, flag_set; simpl. by rewrite lookup_delete_eq. Qed.

Lemma run_call_pinned (c : call) (w : World) :
  pinned (group w) = true → run_call c w = Returned w.
Proof.
  intros Hpin. destruct c as [dx dy ign | width height]; simpl.
  - unfold move. by rewrite Hpin.
  - unfold resize. rewrite Hpin. by destruct w.
Qed.

(** C3.  While the group is pinned, every sequence of [move] and [resize]
    calls, whatever the arguments, leaves the whole state as it was: the
    group's position and size and every node of the heap; each single call
    returns normally.  [unpin] is what ends this. *)
Theorem pinned_calls_change_nothing (cs : list call) (w : World) :
  pinned (group w) = true →
  run_calls cs w = w
  ∧ Forall (fun c => run_call c w = Returned w) cs
  ∧ pinned (unpin (group w)) = false.
Proof.
  intros Hpin. split; [| split].
  - induction cs as [| c cs IH]; [done |].
    unfold run_calls in *. simpl. by rewrite run_call_pinned.
  - apply Forall_forall. intros c _. by apply run_call_pinned.
  - apply pinned_unpin.
Qed.

(** ** Fitting the group around nodes: what is left alone *)

Lemma with_bounding_same (g : LGraphGroup) : with_bounding (_bounding g) g = g.
Proof. by destruct g. Qed.

Lemma set_pos_frame (v : option (list number)) (g : LGraphGroup) :
  ∃ b, set_pos v g = with_bounding b g.
Proof.
  destruct v as [v |]; simpl.
  - case_match; [| by eexists].
    exists (_bounding g). by rewrite with_bounding_same.
  - exists (_bounding g). by rewrite with_bounding_same.
Qed.

Lemma set_size_frame (v : option (list number)) (g : LGraphGroup) :
  ∃ b, set_size v g = with_bounding b g.
Proof.
  destruct v as [v |]; simpl.
  - case_match; [| by eexists].
    exists (_bounding g). by rewrite with_bounding_same.
  - exists (_bounding g). by rewrite with_bounding_same.
Qed.

Lemma addNodes_world (H : number) (nodes : list ref) (padding : option number)
    (w : World) :
  ∃ b, world_of (addNodes H nodes padding w)
       = Mk_world (with_bounding b (group w)) (heap w).
Proof.
  unfold addNodes. case_match.
  - exists (_bounding (group w)). rewrite with_bounding_same. by destruct w.
  - case_match.
    + cbn [world_of].
      match goal with
      | |- context [set_pos ?u ?g] => destruct (set_pos_frame u g) as [b1 ->]
      end.
      match goal with
      | |- context [set_size ?v ?g] => destruct (set_size_frame v g) as [b2 ->]
      end.
      by exists b2.
    + exists (_bounding (group w)). rewrite with_bounding_same. by destruct w.
Qed.

(** C10.  Whatever the nodes and the padding, and however the call ends,
    [addNodes] writes nothing but the group's buffer (position and size): the
    member list is as before, the supplied nodes are not appended to it, the
    title, colour, flags and font size are as before, and no node of the heap
    is touched. *)
Theorem addNodes_touches_only_bounding (H : number) (nodes : list ref)
    (padding : option number) (w : World) :
  let w' := world_of (addNodes H nodes padding w) in
  heap w' = heap w
  ∧ _nodes (group w') = _nodes (group w)
  ∧ title (group w') = title (group w)
  ∧ color (group w') = color (group w)
  ∧ flags (group w') = flags (group w)
  ∧ font_size (group w') = font_size (group w)
  ∧ font (group w') = font (group w)
  ∧ graph (group w') = graph (group w)
  ∧ selected (group w') = selected (group w).
Proof.
  destruct (addNodes_world H nodes padding w) as [b Hw].
  simpl. rewrite Hw. by repeat split.
Qed.

(** The guard of [addNodes] fires only when there is no member array at all. *)
Lemma addNodes_no_array (H : number) (padding : option number) (w : World) :
  _nodes (group w) = None → addNodes H [] padding w = Returned w.
Proof. intros Hn. unfold addNodes. by rewrite Hn. Qed.

(** C2.  A fresh group has an empty member list, sits at (10, 10) and is
    140 by 80.  [addNodes([], 10)] on it does not return early: the empty
    array is truthy, the fold runs over no node, and the group is sent to
    (Infinity, Infinity). *)
Theorem addNodes_nothing_to_fit_moves_group :
  let w := Mk_world fresh_group ∅ in
  let w' := world_of (addNodes 30%Z [] (Some (10%Z : number)) w) in
  _nodes fresh_group = Some []
  ∧ get_pos (group w) = (10%Z : number, 10%Z : number)
  ∧ addNodes 30%Z [] (Some (10%Z : number)) w = Returned w'
  ∧ get_pos (group w') = (PosInf, PosInf)
  ∧ get_size (group w') = (140%Z : number, 80%Z : number)
  ∧ get_pos (group w') ≠ get_pos (group w).
Proof. simpl. by repeat split. Qed.

(** ** Saving and loading *)

Lemma Qcround_near (q : Qc) :
  (Qcround q - Q2Qc (1 # 2) ≤ q)%Qc ∧ (q < Qcround q + Q2Qc (1 # 2))%Qc.
Proof.
  unfold Qcround, Qcfloor.
  pose proof (Qfloor_le (q + Q2Qc (1 # 2))%Qc) as Hlo.
  pose proof (Qlt_floor (q + Q2Qc (1 # 2))%Qc) as Hhi.
  set (z := Qfloor (q + Q2Qc (1 # 2))%Qc) in *.
  rewrite inject_Z_plus in Hhi.
  unfold Qcle, Qclt, Qcminus, Qcplus, Qcopp, Qc_of_Z, Q2Qc in *.
  cbn [this] in *. rewrite ?Qred_correct in *.
  change (inject_Z 1) with 1%Q in Hhi.
  split; lra.
Qed.

Lemma Qcround_int (z : Z) : Qcround (Qc_of_Z z) = Qc_of_Z z.
Proof.
  unfold Qcround, Qcfloor. f_equal.
  assert (Hz : (Qc_of_Z z + Q2Qc (1 # 2))%Qc == inject_Z z + (1 # 2)).
  { unfold Qcplus, Qc_of_Z, Q2Qc. cbn [this]. by rewrite !Qred_correct. }
  rewrite Hz. unfold Qfloor, Qplus, inject_Z. simpl.
  symmetry. apply Z.div_unique with (r := 1%Z); lia.
Qed.

Lemma Math_round_idem (a : number) : Math_round (Math_round a) = Math_round a.
Proof.
  destruct a; simpl; [| done..].
  f_equal. unfold Qcround at 2. apply Qcround_int.
Qed.

(** C8.  Loading into any group the record saved from a group [g] returns
    normally and leaves the title, colour and flags of [g] and the bounding
    values of [g] as [serialize] rounded them (saving again gives the same
    four values).  The font size is the one of [g] when that is truthy;
    when it is 0 or [NaN] the font size the target had before the load is
    kept.  Nothing else of the target changes. *)
Theorem configure_serialize_round_trip (g : LGraphGroup) (w : World) :
  ∃ g' : LGraphGroup,
    configure (serialize g) w = Returned (Mk_world g' (heap w))
    ∧ title g' = title g
    ∧ color g' = color g
    ∧ flags g' = flags g
    ∧ _bounding g'
      = Buf (Math_round (slot0 (_bounding g))) (Math_round (slot1 (_bounding g)))
            (Math_round (slot2 (_bounding g))) (Math_round (slot3 (_bounding g)))
    ∧ ISerialisedGroup.bounding (serialize g')
      = ISerialisedGroup.bounding (serialize g)
    ∧ font_size g'
      = (if num_truthy (font_size g) then font_size g
         else font_size (group w))
    ∧ _nodes g' = _nodes (group w)
    ∧ graph g' = graph (group w)
    ∧ font g' = font (group w)
    ∧ selected g' = selected (group w).
Proof.
  unfold configure, serialize. cbn.
  destruct (num_truthy (font_size g)) eqn:Hfs;
    (eexists; split; [reflexivity |]); cbn;
    rewrite !Math_round_idem; by repeat split.
Qed.

(** ** Hit test of the title bar *)

(** C9.  With rational bounding values and font size, [isPointInTitlebar]
    is true exactly on the closed rectangle whose corner is the group's
    position, whose width is the group's width and whose height is the
    title bar height, 1.4 times the font size.  When width and font size are
    not negative the four corners test true; a point one unit above the top
    edge, or one unit below the bottom edge of the title bar, tests false. *)
Theorem isPointInTitlebar_inclusive (g : LGraphGroup) (bx bt bw fs : Qc) :
  slot0 (_bounding g) = Fin bx →
  slot1 (_bounding g) = Fin bt →
  slot2 (_bounding g) = Fin bw →
  font_size g = Fin fs →
  let th := (fs * Q2Qc (7 # 5))%Qc in
  (∀ x y : Qc,
     isPointInTitlebar (Fin x) (Fin y) g = true
     ↔ (bx ≤ x ∧ x ≤ bx + bw ∧ bt ≤ y ∧ y ≤ bt + th)%Qc)
  ∧ ((0 ≤ bw)%Qc → (0 ≤ fs)%Qc →
     isPointInTitlebar (Fin bx) (Fin bt) g = true
     ∧ isPointInTitlebar (Fin (bx + bw)) (Fin bt) g = true
     ∧ isPointInTitlebar (Fin bx) (Fin (bt + th)) g = true
     ∧ isPointInTitlebar (Fin (bx + bw)) (Fin (bt + th)) g = true)
  ∧ (∀ x : number, isPointInTitlebar x (Fin (bt - 1)) g = false)
  ∧ (∀ x : number, isPointInTitlebar x (Fin (bt + th + 1)) g = false).
Proof.
  intros H0 H1 H2 Hfs th.
  assert (Hiff : ∀ x y : Qc,
             isPointInTitlebar (Fin x) (Fin y) g = true
             ↔ (bx ≤ x ∧ x ≤ bx + bw ∧ bt ≤ y ∧ y ≤ bt + th)%Qc).
  { intros x y. unfold isPointInTitlebar, isInsideRectangle, titleHeight.
    cbn [buf_get ToNumber default]. rewrite H0, H1, H2, Hfs. simpl.
    rewrite !andb_true_iff, !bool_decide_eq_true. fold th. tauto. }
  split; [exact Hiff |]. split; [| split].
  - intros Hw Hf.
    assert (0 ≤ th)%Qc.
    { subst th. unfold Qcle, Qcmult, Q2Qc in *. cbn [this] in *.
      rewrite ?Qred_correct in *. change (this 0%Qc) with 0%Q in *. nra. }
    rewrite !Hiff. repeat split; qc_arith.
  - intros x. unfold isPointInTitlebar, isInsideRectangle, titleHeight.
    cbn [buf_get ToNumber default]. rewrite H0, H1, H2, Hfs.
    apply andb_false_iff. left. apply andb_false_iff. right.
    simpl. apply bool_decide_eq_false. intros Hle. qc_arith.
  - intros x. unfold isPointInTitlebar, isInsideRectangle, titleHeight.
    cbn [buf_get ToNumber default]. rewrite H0, H1, H2, Hfs.
    apply andb_false_iff. right.
    simpl. fold th. apply bool_decide_eq_false. intros Hle. qc_arith.
Qed.

(** ** Moving the group drags the cached members *)

(** Each occurrence of a reference in the member list shifts its node once. *)
Lemma shift_nodes_lookup (dx dy : number) (members : list ref)
    (h : gmap nat LGraphNode.t) (r : ref) :
  shift_nodes dx dy members h !! r
  = Nat.iter (count_occ Nat.eq_dec members r) (shift_node dx dy) <$> h !! r.
Proof.
  unfold shift_nodes. revert h.
  induction members as [| a members IH]; intros h; simpl.
  - by destruct (h !! r).
  - rewrite IH. destruct (Nat.eq_dec a r) as [-> | Hne].
    + rewrite lookup_alter_eq. destruct (h !! r) as [n |]; simpl; [| done].
      f_equal. by rewrite <- Nat.iter_succ_r.
    + by rewrite lookup_alter_ne.
Qed.

Lemma shift_nodes_outside (dx dy : number) (members : list ref)
    (h : gmap nat LGraphNode.t) (r : ref) :
  r ∉ members → shift_nodes dx dy members h !! r = h !! r.
Proof.
  intros Hout. rewrite shift_nodes_lookup.
  rewrite (proj1 (count_occ_not_In Nat.eq_dec members r)).
  - by destruct (h !! r).
  - by rewrite <- list_elem_of_In.
Qed.

Lemma shift_nodes_member (dx dy : number) (members : list ref)
    (h : gmap nat LGraphNode.t) (r : ref) :
  NoDup members → r ∈ members →
  shift_nodes dx dy members h !! r = shift_node dx dy <$> h !! r.
Proof.
  intros Hnd Hin. rewrite shift_nodes_lookup.
  assert (Hc : count_occ Nat.eq_dec members r = 1%nat).
  { apply NoDup_count_occ'; [by apply NoDup_ListNoDup |].
    by apply list_elem_of_In. }
  by rewrite Hc.
Qed.


(** ** Overlap of boxes *)

Lemma Math_max_leb (a b : number) (c : Qc) :
  (Math_max a b <=? Fin c)%js = true
  ↔ (a <=? Fin c)%js = true ∧ (b <=? Fin c)%js = true.
Proof.
  destruct a as [p | | |], b as [q | | |]; simpl;
    rewrite ?bool_decide_eq_true; try tauto; try (split; [done | tauto]).
  destruct (Qcmax_spec p q) as (Hp & Hq & [He | He]); rewrite He in *; split;
    intros; try split; try tauto; destruct_and?; qc_arith.
Qed.

Lemma Math_min_geb (a b : number) (c : Qc) :
  (Fin c <=? Math_min a b)%js = true
  ↔ (Fin c <=? a)%js = true ∧ (Fin c <=? b)%js = true.
Proof.
  destruct a as [p | | |], b as [q | | |]; simpl;
    rewrite ?bool_decide_eq_true; try tauto; try (split; [done | tauto]).
  destruct (Qcmin_spec p q) as (Hp & Hq & [He | He]); rewrite He in *; split;
    intros; try split; try tauto; destruct_and?; qc_arith.
Qed.

(** [lo < hi] exactly when a proper interval fits between them. *)
Lemma num_ltb_between (lo hi : number) :
  (lo <? hi)%js = true
  ↔ ∃ x0 x1 : Qc,
      (x0 < x1)%Qc ∧ (lo <=? Fin x0)%js = true ∧ (Fin x1 <=? hi)%js = true.
Proof.
  split.
  - destruct lo as [p | | |], hi as [q | | |]; simpl; try done;
      rewrite ?bool_decide_eq_true; intros Hlt.
    + exists p, q. rewrite !bool_decide_eq_true.
      repeat split; [done | apply Qcle_refl..].
    + exists p, (p + 1)%Qc. rewrite !bool_decide_eq_true.
      repeat split; [qc_arith | apply Qcle_refl].
    + exists (q - 1)%Qc, q. rewrite !bool_decide_eq_true.
      repeat split; [qc_arith | apply Qcle_refl].
    + exists 0%Qc, 1%Qc. by repeat split.
  - intros (x0 & x1 & Hlt & Hlo & Hhi).
    destruct lo as [p | | |], hi as [q | | |]; simpl in *; try done;
      rewrite ?bool_decide_eq_true in *; qc_arith.
Qed.

Lemma interval_overlap (lo1 hi1 lo2 hi2 : number) :
  (Math_max lo1 lo2 <? Math_min hi1 hi2)%js = true
  ↔ ∃ x0 x1 : Qc,
      (x0 < x1)%Qc
      ∧ ((lo1 <=? Fin x0)%js = true ∧ (Fin x1 <=? hi1)%js = true)
      ∧ ((lo2 <=? Fin x0)%js = true ∧ (Fin x1 <=? hi2)%js = true).
Proof.
  rewrite num_ltb_between.
  split; intros (x0 & x1 & Hlt & H); exists x0, x1; (split; [done |]);
    revert H; rewrite Math_max_leb, Math_min_geb; tauto.
Qed.

(** The boolean test is the geometric notion. *)
Lemma overlapBounding_spec (a b : Float32Array4) :
  overlapBounding a b = true ↔ positive_area_intersection a b.
Proof.
  unfold overlapBounding, positive_area_intersection, box_contains.
  rewrite andb_true_iff, !interval_overlap. split.
  - intros [(x0 & x1 & Hx & Hax & Hbx) (y0 & y1 & Hy & Hay & Hby)].
    exists x0, y0, x1, y1. tauto.
  - intros (x0 & y0 & x1 & y1 & Hx & Hy & Ha & Hb).
    split; [exists x0, x1 | exists y0, y1]; tauto.
Qed.

Lemma box_contains_proper (a : Float32Array4) (x0 y0 x1 y1 : Qc) :
  box_contains a x0 y0 x1 y1 → (x0 < x1)%Qc → (y0 < y1)%Qc → ¬ zero_extent a.
Proof.
  unfold box_contains, zero_extent.
  intros (H0 & H1 & H2 & H3) Hx Hy [Hz | Hz]; rewrite Hz in *.
  - destruct (slot0 a); simpl in *; try done.
    rewrite ?bool_decide_eq_true in *. qc_arith.
  - destruct (slot1 a); simpl in *; try done.
    rewrite ?bool_decide_eq_true in *. qc_arith.
Qed.

Lemma overlapBounding_zero_extent (a b : Float32Array4) :
  zero_extent a ∨ zero_extent b → overlapBounding a b = false.
Proof.
  intros Hz. apply not_true_is_false. rewrite overlapBounding_spec.
  intros (x0 & y0 & x1 & y1 & Hx & Hy & Ha & Hb).
  destruct Hz as [Hz | Hz].
  - exact (box_contains_proper _ _ _ _ _ Ha Hx Hy Hz).
  - exact (box_contains_proper _ _ _ _ _ Hb Hx Hy Hz).
Qed.

(** ** Recomputing the members *)

Section Recompute.

Variable getBounding : LGraphNode.t -> Float32Array4.

Lemma scan_nodes_filter (h : gmap nat LGraphNode.t) (b : Float32Array4)
    (nodes inside : list ref) :
  Forall (fun r => is_Some (h !! r)) nodes →
  scan_nodes getBounding h b nodes inside
  = (true, inside ++ List.filter (node_inside getBounding h b) nodes).
Proof.
  intros Hall. revert inside.
  induction Hall as [| r nodes [node Hr] _ IH]; intros inside; simpl.
  - by rewrite app_nil_r.
  - unfold node_inside at 1. rewrite Hr.
    destruct (overlapBounding b (getBounding node)); simpl.
    + by rewrite IH, <- app_assoc.
    + apply IH.
Qed.

Lemma node_inside_zero_group (h : gmap nat LGraphNode.t) (b : Float32Array4)
    (r : ref) :
  zero_extent b → node_inside getBounding h b r = false.
Proof.
  intros Hz. unfold node_inside. destruct (h !! r) as [n |]; [| done].
  apply overlapBounding_zero_extent. by left.
Qed.

Lemma filter_zero_group (h : gmap nat LGraphNode.t) (b : Float32Array4)
    (nodes : list ref) :
  zero_extent b → List.filter (node_inside getBounding h b) nodes = [].
Proof.
  intros Hz. induction nodes as [| r rest IH]; [done |]. simpl.
  by rewrite node_inside_zero_group.
Qed.

(** C4.  With a member array (whatever it holds) and an owning graph whose
    list holds nodes, [recomputeInsideNodes] returns normally, touches no
    node and nothing of the group but the member list, which becomes the
    graph's list, in its order, cut down to the nodes whose bounding box
    shares a rectangle of positive area with the group's box.  A node whose
    box has no width or no height is never a member, and a group without
    width or height has none. *)
Theorem recomputeInsideNodes_exact (w : World) (prior : list ref)
    (gr : LGraph.t) :
  _nodes (group w) = Some prior →
  graph (group w) = Some gr →
  Forall (fun r => is_Some (heap w !! r)) (LGraph._nodes gr) →
  let b := _bounding (group w) in
  let inside :=
    List.filter (node_inside getBounding (heap w) b) (LGraph._nodes gr) in
  recomputeInsideNodes getBounding w
  = Returned (Mk_world (with_nodes (Some inside) (group w)) (heap w))
  ∧ (∀ r : ref,
       r ∈ inside
       ↔ r ∈ LGraph._nodes gr
         ∧ ∃ n, heap w !! r = Some n
                ∧ positive_area_intersection b (getBounding n))
  ∧ (∀ (r : ref) (n : LGraphNode.t),
       heap w !! r = Some n → zero_extent (getBounding n) → r ∉ inside)
  ∧ (zero_extent b → inside = []).
Proof.
  intros Hprior Hgraph Hall b inside.
  assert (Hin : ∀ r : ref,
             r ∈ inside
             ↔ r ∈ LGraph._nodes gr
               ∧ ∃ n, heap w !! r = Some n
                      ∧ positive_area_intersection b (getBounding n)).
  { intros r. subst inside. rewrite !list_elem_of_In, filter_In.
    unfold node_inside. split.
    - intros [Hr Hov]. split; [done |].
      destruct (heap w !! r) as [n |]; [| done].
      exists n. by rewrite <- overlapBounding_spec.
    - intros [Hr (n & Hn & Hov)]. split; [done |].
      rewrite Hn. by rewrite overlapBounding_spec. }
  split; [| split; [exact Hin | split]].
  - unfold recomputeInsideNodes. rewrite Hprior. simpl. rewrite Hgraph.
    rewrite scan_nodes_filter by done. simpl.
    by destruct w as [[] ?].
  - intros r n Hn Hz. rewrite Hin. intros [_ (n' & Hn' & Hov)].
    assert (n' = n) as -> by congruence.
    apply overlapBounding_spec in Hov.
    rewrite overlapBounding_zero_extent in Hov by auto. done.
  - intros Hz. subst inside. by apply filter_zero_group.
Qed.

End Recompute.

(** ** Fitting the group around nodes: the box *)

Lemma get_pos_set_pos (a b : number) (g : LGraphGroup) :
  get_pos (set_pos (Some [a; b]) g) = (a, b).
Proof. reflexivity. Qed.

Lemma get_pos_set_size (c d : number) (g : LGraphGroup) :
  get_pos (set_size (Some [c; d]) g) = get_pos g.
Proof. reflexivity. Qed.

Lemma get_size_set_size (c d : number) (g : LGraphGroup) :
  get_size (set_size (Some [c; d]) g) = (Math_max 140%Z c, Math_max 80%Z d).
Proof. reflexivity. Qed.

Lemma titleHeight_set_pos (v : option (list number)) (g : LGraphGroup) :
  titleHeight (set_pos v g) = titleHeight g.
Proof. destruct (set_pos_frame v g) as [b ->]. reflexivity. Qed.

(** The running minimum is the least of the edges, and is one of them. *)
Lemma running_min_least (edge : LGraphNode.t -> number)
    (ns : list LGraphNode.t) :
  Forall (fun n => ∃ q, edge n = Fin q) ns →
  (ns = [] ∧ running_min edge ns = PosInf)
  ∨ ∃ m : Qc,
      running_min edge ns = Fin m
      ∧ Forall (fun n => ∃ q, edge n = Fin q ∧ (m ≤ q)%Qc) ns
      ∧ Exists (fun n => edge n = Fin m) ns.
Proof.
  induction ns as [| n ns IH] using rev_ind; intros Hfin; [by left |].
  right. apply Forall_app in Hfin as [Hns Hn].
  apply Forall_singleton in Hn as [q Hq].
  unfold running_min in *. rewrite foldl_snoc, Hq.
  destruct (IH Hns) as [[-> ->] | (m & -> & Hle & Hex)]; simpl.
  - exists q. split; [done |]. split.
    + apply Forall_singleton. exists q. split; [done | apply Qcle_refl].
    + apply Exists_cons_hd. done.
  - destruct (Qcmin_spec m q) as (Hm & Hq' & Hor).
    exists (Qcmin m q). split; [done |]. split.
    + apply Forall_app. split.
      * eapply Forall_impl; [exact Hle |]. intros n' (q' & Hn' & Hmq').
        exists q'. split; [done |]. by apply (Qcle_trans _ m).
      * apply Forall_singleton. by exists q.
    + apply Exists_app. destruct Hor as [-> | ->]; [by left |].
      right. by apply Exists_cons_hd.
Qed.

(** The running maximum is the greatest of the edges, and is one of them. *)
Lemma running_max_greatest (edge : LGraphNode.t -> number)
    (ns : list LGraphNode.t) :
  Forall (fun n => ∃ q, edge n = Fin q) ns →
  (ns = [] ∧ running_max edge ns = NegInf)
  ∨ ∃ m : Qc,
      running_max edge ns = Fin m
      ∧ Forall (fun n => ∃ q, edge n = Fin q ∧ (q ≤ m)%Qc) ns
      ∧ Exists (fun n => edge n = Fin m) ns.
Proof.
  induction ns as [| n ns IH] using rev_ind; intros Hfin; [by left |].
  right. apply Forall_app in Hfin as [Hns Hn].
  apply Forall_singleton in Hn as [q Hq].
  unfold running_max in *. rewrite foldl_snoc, Hq.
  destruct (IH Hns) as [[-> ->] | (m & -> & Hle & Hex)]; simpl.
  - exists q. split; [done |]. split.
    + apply Forall_singleton. exists q. split; [done | apply Qcle_refl].
    + apply Exists_cons_hd. done.
  - destruct (Qcmax_spec m q) as (Hm & Hq' & Hor).
    exists (Qcmax m q). split; [done |]. split.
    + apply Forall_app. split.
      * eapply Forall_impl; [exact Hle |]. intros n' (q' & Hn' & Hmq').
        exists q'. split; [done |]. by apply (Qcle_trans _ m).
      * apply Forall_singleton. by exists q.
    + apply Exists_app. destruct Hor as [-> | ->]; [by left |].
      right. by apply Exists_cons_hd.
Qed.

Section Fit.

Variable H : number.

(** One step of the fold, edge by edge. *)
Lemma bounds_step_edges (acc : Bounds.t) (n : LGraphNode.t) :
  bounds_step H acc n
  = {| Bounds.left := Math_min (Bounds.left acc) (edge_left n);
       Bounds.top := Math_min (Bounds.top acc) (edge_top H n);
       Bounds.right := Math_max (Bounds.right acc) (edge_right n);
       Bounds.bottom := Math_max (Bounds.bottom acc) (edge_bottom H n) |}.
Proof.
  unfold bounds_step, edge_left, edge_bottom, edge_top, edge_right,
    is_reroute, is_collapsed, collapsed_width_hint.
  destruct n as [[x y] [width height] ty fl cw]; simpl.
  destruct (match ty with Some s => String.eqb s "Reroute" | None => false end);
    destruct (match fl with Some bag => flag_set "collapsed" bag
                       | None => false end);
    destruct cw as [cw |]; simpl; rewrite ?num_sub_0_r;
    try destruct (num_truthy cw); reflexivity.
Qed.

Lemma foldl_bounds_step (ns : list LGraphNode.t) (acc : Bounds.t) :
  foldl (bounds_step H) acc ns
  = {| Bounds.left :=
         foldl (fun a n => Math_min a (edge_left n)) (Bounds.left acc) ns;
       Bounds.top :=
         foldl (fun a n => Math_min a (edge_top H n)) (Bounds.top acc) ns;
       Bounds.right :=
         foldl (fun a n => Math_max a (edge_right n)) (Bounds.right acc) ns;
       Bounds.bottom :=
         foldl (fun a n => Math_max a (edge_bottom H n)) (Bounds.bottom acc) ns
    |}.
Proof.
  revert acc. induction ns as [| n ns IH]; intros acc; simpl.
  - by destruct acc.
  - by rewrite IH, bounds_step_edges.
Qed.

Lemma reduce_bounds_foldl (h : gmap nat LGraphNode.t) (allNodes : list ref)
    (ns : list LGraphNode.t) (acc : Bounds.t) :
  Forall2 (fun r n => h !! r = Some n) allNodes ns →
  reduce_bounds H h allNodes acc = Some (foldl (bounds_step H) acc ns).
Proof.
  intros Hall. revert acc.
  induction Hall as [| r n allNodes ns Hr _ IH]; intros acc; simpl; [done |].
  by rewrite Hr, IH.
Qed.


End Fit.

(** The member list that [recomputeInsideNodes] builds from a graph list
    without repeats has no repeats either. *)
Lemma recompute_members_NoDup (getBounding : LGraphNode.t -> Float32Array4)
    (h : gmap nat LGraphNode.t) (b : Float32Array4) (nodes : list ref) :
  NoDup nodes → NoDup (List.filter (node_inside getBounding h b) nodes).
Proof.
  rewrite !NoDup_ListNoDup. apply List.NoDup_filter.
Qed.

(** ** The theorems at work on sample states *)


Lemma pinned_calls_change_nothing_witness :
  let w := Mk_world (pin (with_nodes (Some [1%nat]) fresh_group)) sample_heap in
  let cs := [Call_move 5%Z 7%Z false; Call_resize 1%Z 1%Z;
             Call_move NaN PosInf true] in
  pinned (group w) = true ∧ run_calls cs w = w.
Proof.
  intros w cs.
  assert (Hpin : pinned (group w) = true) by reflexivity.
  split; [exact Hpin |].
  exact (proj1 (pinned_calls_change_nothing cs w Hpin)).
Defined.


Lemma isPointInTitlebar_inclusive_witness :
  slot0 (_bounding fresh_group) = Fin (Qc_of_Z 10)
  ∧ slot1 (_bounding fresh_group) = Fin (Qc_of_Z 10)
  ∧ slot2 (_bounding fresh_group) = Fin (Qc_of_Z 140)
  ∧ font_size fresh_group = Fin (Qc_of_Z 24)
  ∧ (0 ≤ Qc_of_Z 140)%Qc
  ∧ (0 ≤ Qc_of_Z 24)%Qc
  ∧ isPointInTitlebar (Fin (Qc_of_Z 10 + Qc_of_Z 140))
      (Fin (Qc_of_Z 10 + Qc_of_Z 24 * Q2Qc (7 # 5))) fresh_group = true
  ∧ isPointInTitlebar 10%Z (Fin (Qc_of_Z 10 - 1)) fresh_group = false.
Proof.
  assert (Hw : (0 ≤ Qc_of_Z 140)%Qc) by (by vm_compute).
  assert (Hf : (0 ≤ Qc_of_Z 24)%Qc) by (by vm_compute).
  do 4 (split; [reflexivity |]).
  split; [exact Hw |]. split; [exact Hf |].
  destruct (isPointInTitlebar_inclusive fresh_group
              (Qc_of_Z 10) (Qc_of_Z 10) (Qc_of_Z 140) (Qc_of_Z 24)
              eq_refl eq_refl eq_refl eq_refl)
    as (_ & Hcorners & Habove & _).
  split.
  - exact (proj2 (proj2 (proj2 (Hcorners Hw Hf)))).
  - exact (Habove 10%Z).
Defined.

Lemma recomputeInsideNodes_exact_witness :
  let g := Group "#AAA" "Group" None 24%Z (Buf 10%Z 10%Z 140%Z 80%Z)
                 (Some [2%nat]) (Some (LGraph.Make [1%nat; 2%nat; 3%nat]))
                 ∅ None in
  let w := Mk_world g sample_heap in
  _nodes g = Some [2%nat]
  ∧ graph g = Some (LGraph.Make [1%nat; 2%nat; 3%nat])
  ∧ Forall (fun r => is_Some (sample_heap !! r)) [1%nat; 2%nat; 3%nat]
  ∧ recomputeInsideNodes sample_getBounding w
    = Returned (Mk_world (with_nodes (Some [1%nat; 3%nat]) g) sample_heap).
Proof.
  intros g w.
  assert (Hall : Forall (fun r => is_Some (sample_heap !! r))
                        [1%nat; 2%nat; 3%nat]).
  { repeat (constructor; [by eexists |]). constructor. }
  split; [reflexivity |]. split; [reflexivity |]. split; [exact Hall |].
  exact (proj1 (recomputeInsideNodes_exact sample_getBounding w [2%nat]
                  (LGraph.Make [1%nat; 2%nat; 3%nat]) eq_refl eq_refl Hall)).
Defined.


(** ** Further properties of the accessors *)

Lemma num_add_0_r (a : number) : (a + 0%Z)%js = a.
Proof. destruct a; simpl; [f_equal; qc_arith | done..]. Qed.

Lemma Math_max_fixed (c : Qc) (x : number) :
  Math_max (Fin c) x = x ↔ (x <? Fin c)%js = false.
Proof.
  destruct x as [q | | |]; simpl; try done.
  rewrite bool_decide_eq_false. unfold Qcmax. case_decide as Hle; split.
  - intros _ Hlt. qc_arith.
  - done.
  - intros [= ->]. destruct Hle. apply Qcle_refl.
  - intros Hnlt. destruct Hnlt. qc_arith.
Qed.

Lemma Math_max_reaches (c : Qc) (x : number) :
  (Fin c <=? Math_max (Fin c) x)%js = true ↔ x ≠ NaN.
Proof.
  destruct x as [q | | |]; simpl; rewrite ?bool_decide_eq_true; try done.
  all: split; [done |]; intros _;
    first [apply Qcmax_spec | apply Qcle_refl].
Qed.

(** X1.  The position and the size are windows on disjoint slots of the one
    buffer: assigning the one never disturbs the other, whatever is assigned,
    malformed inputs included, and the two assignments can be made in either
    order. *)
Theorem set_pos_set_size_commute (u v : option (list number))
    (g : LGraphGroup) :
  set_pos u (set_size v g) = set_size v (set_pos u g)
  ∧ get_size (set_pos u g) = get_size g
  ∧ get_pos (set_size v g) = get_pos g.
Proof.
  destruct u as [u |], v as [v |]; simpl;
    repeat case_match; by repeat split.
Qed.

(** X2.  Assigning a group its own position is a no-op.  Assigning it its own
    size is a no-op exactly when neither component is below the minimum
    (width < 140 or height < 80 in the sense of JavaScript, so that [NaN]
    passes); otherwise the assignment changes the group. *)
Theorem setters_on_own_values (g : LGraphGroup) :
  set_pos (Some [fst (get_pos g); snd (get_pos g)]) g = g
  ∧ (set_size (Some [fst (get_size g); snd (get_size g)]) g = g
     ↔ (fst (get_size g) <? 140%Z)%js = false
       ∧ (snd (get_size g) <? 80%Z)%js = false).
Proof.
  destruct g as [c t f fs [s0 s1 s2 s3] ns gr fl sel]. split; [done |].
  change (Group c t f fs
            (Buf s0 s1 (Math_max (Fin (Qc_of_Z 140)) s2)
                 (Math_max (Fin (Qc_of_Z 80)) s3)) ns gr fl sel
          = Group c t f fs (Buf s0 s1 s2 s3) ns gr fl sel
          ↔ (s2 <? Fin (Qc_of_Z 140))%js = false
            ∧ (s3 <? Fin (Qc_of_Z 80))%js = false).
  rewrite <- !Math_max_fixed. split.
  - intros [= H2 H3]. done.
  - intros [H2 H3]. by rewrite H2, H3.
Qed.

(** X3.  After an assignment of at least two elements through the size
    setter the group meets the minimum size, 140 by 80, exactly when neither
    of the two elements is [NaN]: [Math.max] lets a [NaN] through. *)
Theorem set_size_meets_minimum (g : LGraphGroup) (w h : number)
    (rest : list number) :
  meets_minimum_size (set_size (Some (w :: h :: rest)) g) = true
  ↔ w ≠ NaN ∧ h ≠ NaN.
Proof.
  change (meets_minimum_size (set_size (Some (w :: h :: rest)) g))
    with ((Fin (Qc_of_Z 140) <=? Math_max (Fin (Qc_of_Z 140)) w)%js
          && (Fin (Qc_of_Z 80) <=? Math_max (Fin (Qc_of_Z 80)) h)%js).
  by rewrite andb_true_iff, !Math_max_reaches.
Qed.

(** X4.  Whatever the title given and the editor's settings, a new group has
    a title that is not empty, a font size that is truthy, the minimum size,
    no pin, an empty member array and no graph. *)
Theorem ctor_establishes (DEFAULT_GROUP_FONT : number)
    (pale_blue_groupcolor : option string) (name : option string) :
  let g := _ctor DEFAULT_GROUP_FONT pale_blue_groupcolor name in
  title g ≠ ""
  ∧ num_truthy (font_size g) = true
  ∧ meets_minimum_size g = true
  ∧ pinned g = false
  ∧ _nodes g = Some []
  ∧ graph g = None.
Proof.
  simpl. repeat split.
  - destruct name as [s |]; [| done].
    destruct (String.eqb s "") eqn:Hs; [done |]. by apply String.eqb_neq.
  - by destruct (num_truthy DEFAULT_GROUP_FONT) eqn:Hf.
Qed.

(** ** Pinning *)

(** X5.  [pin] and [unpin] write the [pinned] entry of the flags and nothing
    else: every other entry, and every other field of the group, stays.
    Pinning twice is pinning once, and on a group that has no [pinned] entry
    [unpin] undoes [pin] exactly. *)
Theorem pin_unpin_only_flag (g : LGraphGroup) :
  (∀ k : string, k ≠ "pinned" →
     flags (pin g) !! k = flags g !! k ∧ flags (unpin g) !! k = flags g !! k)
  ∧ pin g = with_flags (flags (pin g)) g
  ∧ unpin g = with_flags (flags (unpin g)) g
  ∧ pin (pin g) = pin g
  ∧ pinned (pin g) = true
  ∧ pinned (unpin g) = false
  ∧ (flags g !! "pinned" = None → unpin (pin g) = g).
Proof.
  repeat split.
  - unfold pin; simpl. by rewrite lookup_insert_ne.
  - unfold unpin; simpl. by rewrite lookup_delete_ne.
  - unfold pin, with_flags; simpl. by rewrite insert_insert_eq.
  - apply pinned_pin.
  - apply pinned_unpin.
  - intros Hno. unfold unpin, pin, with_flags; simpl.
    rewrite delete_insert_eq, delete_id by done. by destruct g.
Qed.

Lemma run_calls_pinned (cs : list call) (w : World) :
  pinned (group w) = true → run_calls cs w = w.
Proof.
  intros Hpin. induction cs as [| c cs IH]; [done |].
  unfold run_calls in *. simpl. by rewrite run_call_pinned.
Qed.

(** X6.  Pinning a group that has no [pinned] entry, letting the editor make
    any calls of [move] and [resize], and unpinning it again gives back the
    very group one started with, and the nodes are as they were. *)
Theorem pinned_interlude (g : LGraphGroup) (h : gmap nat LGraphNode.t)
    (cs : list call) :
  flags g !! "pinned" = None →
  let w' := run_calls cs (Mk_world (pin g) h) in
  unpin (group w') = g ∧ heap w' = h.
Proof.
  intros Hno. simpl. rewrite run_calls_pinned by apply pinned_pin. simpl.
  split; [| done].
  unfold unpin, pin, with_flags; simpl.
  rewrite delete_insert_eq, delete_id by done. by destruct g.
Qed.

(** ** Moving *)

Lemma shift_node_zero (n : LGraphNode.t) : shift_node 0%Z 0%Z n = n.
Proof.
  destruct n as [[x y] sz ty fl cw]. unfold shift_node, LGraphNode.with_pos.
  simpl. by rewrite !num_add_0_r.
Qed.

Lemma shift_nodes_zero (members : list ref) (h : gmap nat LGraphNode.t) :
  shift_nodes 0%Z 0%Z members h = h.
Proof.
  unfold shift_nodes. induction members as [| r members IH]; simpl; [done |].
  rewrite alter_id; [done |]. intros n _. apply shift_node_zero.
Qed.

(** X7.  What [move] does to the group itself does not depend on
    [ignore_nodes]; with [ignore_nodes] set the call always returns normally
    and no node is touched, even when the group has no member array. *)
Theorem move_ignore_nodes (dx dy : number) (w : World) :
  group (world_of (move dx dy true w)) = group (world_of (move dx dy false w))
  ∧ heap (world_of (move dx dy true w)) = heap w
  ∧ move dx dy true w = Returned (world_of (move dx dy true w)).
Proof.
  unfold move. destruct (pinned (group w)); simpl; [done |].
  by destruct (_nodes (group w)).
Qed.


(** ** Further properties of the membership scan *)

Section Recompute_more.

Variable getBounding : LGraphNode.t -> Float32Array4.

(** The scan reaches the end of the list exactly when every entry is a node. *)
Lemma scan_nodes_finished (h : gmap nat LGraphNode.t) (b : Float32Array4)
    (nodes inside : list ref) :
  fst (scan_nodes getBounding h b nodes inside) = true
  ↔ Forall (fun r => is_Some (h !! r)) nodes.
Proof.
  revert inside. induction nodes as [| r nodes IH]; intros inside; simpl.
  - split; [by constructor | done].
  - rewrite Forall_cons. destruct (h !! r) as [node |] eqn:Hr; simpl.
    + destruct (negb (overlapBounding b (getBounding node)));
        rewrite IH; split; [by eauto | tauto | by eauto | tauto].
    + split; [done |]. intros [[? [=]] _].
Qed.

(** X9.  [recomputeInsideNodes] returns normally exactly when the group has a
    member array and an owning graph and every entry of the graph's list is a
    node; in every other case it throws. *)
Theorem recomputeInsideNodes_returns_iff (w : World) :
  (∃ w', recomputeInsideNodes getBounding w = Returned w')
  ↔ is_Some (_nodes (group w))
    ∧ ∃ gr, graph (group w) = Some gr
            ∧ Forall (fun r => is_Some (heap w !! r)) (LGraph._nodes gr).
Proof.
  unfold recomputeInsideNodes.
  destruct (_nodes (group w)) as [prior |]; simpl.
  - destruct (graph (group w)) as [gr |]; simpl.
    + pose proof (scan_nodes_finished (heap w) (_bounding (group w))
                    (LGraph._nodes gr) []) as Hfin.
      destruct (scan_nodes _ _ _ _ _) as [finished inside]; simpl in Hfin.
      destruct finished; split.
      * intros _. split; [by eexists |]. exists gr. split; [done |].
        by apply Hfin.
      * intros _. by eexists.
      * intros [w' [=]].
      * intros [_ (gr' & [= <-] & Hall)]. by apply Hfin in Hall.
    + split; [intros [w' [=]] | intros [_ (gr & [=] & _)]].
  - split; [intros [w' [=]] | intros [[? [=]] _]].
Qed.

(** X10.  The member array is emptied before the graph is looked at: on a
    group that has no owning graph the call throws a [TypeError] and leaves
    the group with an empty member list, the members it had being lost; the
    rest of the group and the nodes are as before. *)
Theorem recomputeInsideNodes_without_graph (w : World) (prior : list ref) :
  _nodes (group w) = Some prior →
  graph (group w) = None →
  recomputeInsideNodes getBounding w
  = Threw TypeError (Mk_world (with_nodes (Some []) (group w)) (heap w)).
Proof.
  intros Hprior Hgraph. unfold recomputeInsideNodes.
  rewrite Hprior. simpl. by rewrite Hgraph.
Qed.

(** X11.  Recomputing is idempotent: when a call returns normally, a second
    call right after it returns the very same state. *)
Theorem recomputeInsideNodes_idempotent (w w1 : World) :
  recomputeInsideNodes getBounding w = Returned w1 →
  recomputeInsideNodes getBounding w1 = Returned w1.
Proof.
  unfold recomputeInsideNodes.
  destruct (_nodes (group w)) as [prior |]; simpl; [| done].
  destruct (graph (group w)) as [gr |] eqn:Hgr; simpl; [| done].
  destruct (scan_nodes _ _ _ _ _) as [finished inside] eqn:Hscan.
  destruct finished; [| done]. intros [= <-]. simpl.
  rewrite Hgr. simpl. by rewrite Hscan.
Qed.

(** X12.  Recomputing and then moving drags exactly the overlapping nodes:
    on a group that is not pinned, with a member array, an owning graph whose
    list names each node once and holds nodes only, [recomputeInsideNodes]
    followed by [move(dx, dy, false)] returns normally, shifts by (dx, dy)
    every node of the graph's list whose box overlapped the group's box when
    the members were recomputed, and leaves every other node as it was. *)
Theorem recompute_then_move (w : World) (prior : list ref) (gr : LGraph.t)
    (dx dy : number) :
  pinned (group w) = false →
  _nodes (group w) = Some prior →
  graph (group w) = Some gr →
  Forall (fun r => is_Some (heap w !! r)) (LGraph._nodes gr) →
  NoDup (LGraph._nodes gr) →
  ∃ w1 w2 : World,
    recomputeInsideNodes getBounding w = Returned w1
    ∧ move dx dy false w1 = Returned w2
    ∧ ∀ (r : ref) (n : LGraphNode.t),
        heap w !! r = Some n →
        heap w2 !! r
        = Some (if bool_decide (r ∈ LGraph._nodes gr)
                   && overlapBounding (_bounding (group w)) (getBounding n)
                then shift_node dx dy n else n).
Proof.
  intros Hpin Hprior Hgraph Hall Hnd.
  set (inside := List.filter
                   (node_inside getBounding (heap w) (_bounding (group w)))
                   (LGraph._nodes gr)).
  exists (Mk_world (with_nodes (Some inside) (group w)) (heap w)).
  eexists. split; [| split].
  - unfold recomputeInsideNodes. rewrite Hprior. simpl. rewrite Hgraph.
    rewrite scan_nodes_filter by done. simpl. by destruct w as [[] ?].
  - unfold move. simpl.
    replace (pinned (with_nodes (Some inside) (group w))) with false
      by (by rewrite <- Hpin). reflexivity.
  - intros r n Hn. simpl.
    assert (Hin : r ∈ inside
                  ↔ r ∈ LGraph._nodes gr
                    ∧ overlapBounding (_bounding (group w)) (getBounding n)
                      = true).
    { subst inside. rewrite !list_elem_of_In, filter_In.
      unfold node_inside. by rewrite Hn. }
    destruct (bool_decide (r ∈ LGraph._nodes gr)
              && overlapBounding (_bounding (group w)) (getBounding n))
      eqn:Hsel.
    + apply andb_true_iff in Hsel as [Hr Hov].
      apply bool_decide_eq_true in Hr.
      rewrite shift_nodes_member, Hn; [done | | by apply Hin].
      by apply recompute_members_NoDup.
    + rewrite shift_nodes_outside, Hn; [done |].
      intros Hr. apply Hin in Hr as [Hr Hov].
      apply andb_false_iff in Hsel as [Hsel | Hsel].
      * by apply bool_decide_eq_false in Hsel.
      * congruence.
Qed.

End Recompute_more.

(** ** Further properties of the fit *)

Ltac min_max_cases :=
  simpl; try done; f_equal; unfold Qcmin, Qcmax;
  repeat case_decide; try done; qc_arith.

Lemma Math_min_swap (a x y : number) :
  Math_min (Math_min a x) y = Math_min (Math_min a y) x.
Proof. destruct a, x, y; min_max_cases. Qed.

Lemma Math_max_swap (a x y : number) :
  Math_max (Math_max a x) y = Math_max (Math_max a y) x.
Proof. destruct a, x, y; min_max_cases. Qed.

Lemma Math_min_again (a x : number) :
  Math_min (Math_min a x) x = Math_min a x.
Proof. destruct a, x; min_max_cases. Qed.

Lemma Math_max_again (a x : number) :
  Math_max (Math_max a x) x = Math_max a x.
Proof. destruct a, x; min_max_cases. Qed.

Section Fit_more.

Variable H : number.

Lemma bounds_step_swap (acc : Bounds.t) (n m : LGraphNode.t) :
  bounds_step H (bounds_step H acc n) m = bounds_step H (bounds_step H acc m) n.
Proof.
  rewrite !bounds_step_edges. simpl.
  f_equal; first [apply Math_min_swap | apply Math_max_swap].
Qed.

Lemma bounds_step_again (acc : Bounds.t) (n : LGraphNode.t) :
  bounds_step H (bounds_step H acc n) n = bounds_step H acc n.
Proof.
  rewrite !bounds_step_edges. simpl.
  f_equal; first [apply Math_min_again | apply Math_max_again].
Qed.

Lemma reduce_bounds_not_a_node (h : gmap nat LGraphNode.t) (l : list ref)
    (acc : Bounds.t) (r : ref) :
  r ∈ l → h !! r = None → reduce_bounds H h l acc = None.
Proof.
  intros Hin Hr. revert acc.
  induction l as [| x l IH]; intros acc; [by apply elem_of_nil in Hin |].
  simpl. apply elem_of_cons in Hin as [<- | Hin]; [by rewrite Hr |].
  destruct (h !! x); [by apply IH | done].
Qed.

(** A node met again does not move the box. *)
Lemma reduce_bounds_absorb (h : gmap nat LGraphNode.t) (l : list ref)
    (acc : Bounds.t) (r : ref) (n : LGraphNode.t) :
  r ∈ l → h !! r = Some n →
  reduce_bounds H h l (bounds_step H acc n) = reduce_bounds H h l acc.
Proof.
  intros Hin Hr. revert acc.
  induction l as [| x l IH]; intros acc; [by apply elem_of_nil in Hin |].
  simpl. destruct (decide (x = r)) as [-> | Hne].
  - by rewrite Hr, bounds_step_again.
  - apply elem_of_cons in Hin as [-> | Hin]; [done |].
    destruct (h !! x) as [m |]; [| done].
    rewrite bounds_step_swap. by apply IH.
Qed.

Lemma reduce_bounds_permutation (h : gmap nat LGraphNode.t) (l1 l2 : list ref) :
  l1 ≡ₚ l2 → ∀ acc, reduce_bounds H h l1 acc = reduce_bounds H h l2 acc.
Proof.
  induction 1 as [| x l1 l2 _ IH | x y l | l1 l2 l3 _ IH1 _ IH2];
    intros acc; simpl.
  - done.
  - destruct (h !! x); [apply IH | done].
  - destruct (h !! x) as [n |], (h !! y) as [m |]; try done.
    by rewrite bounds_step_swap.
  - by rewrite IH1.
Qed.

Lemma reduce_bounds_remove_dups (h : gmap nat LGraphNode.t) (l : list ref)
    (acc : Bounds.t) :
  reduce_bounds H h (remove_dups l) acc = reduce_bounds H h l acc.
Proof.
  revert acc. induction l as [| x l IH]; intros acc; simpl; [done |].
  case_decide as Hin; simpl.
  - rewrite IH. destruct (h !! x) as [n |] eqn:Hx.
    + symmetry. by eapply reduce_bounds_absorb.
    + by eapply reduce_bounds_not_a_node.
  - destruct (h !! x); [apply IH | done].
Qed.

Lemma reduce_bounds_same_elements (h : gmap nat LGraphNode.t)
    (l1 l2 : list ref) (acc : Bounds.t) :
  (∀ r, r ∈ l1 ↔ r ∈ l2) →
  reduce_bounds H h l1 acc = reduce_bounds H h l2 acc.
Proof.
  intros Hsame.
  rewrite <- (reduce_bounds_remove_dups h l1), <- (reduce_bounds_remove_dups h l2).
  apply reduce_bounds_permutation.
  apply NoDup_Permutation; [apply NoDup_remove_dups.. |].
  intros r. by rewrite !elem_of_remove_dups.
Qed.

(** X13.  The fit depends on which nodes are given, not on their order nor on
    how often one is named: two calls whose combined lists (members, then
    supplied nodes) name the same nodes end in the same way and leave the
    same state.  Naming a member again, or a node twice, changes nothing. *)
Theorem addNodes_same_nodes (nodes nodes' : list ref) (p : option number)
    (w : World) :
  (∀ r : ref,
     r ∈ default [] (_nodes (group w)) ++ nodes
     ↔ r ∈ default [] (_nodes (group w)) ++ nodes') →
  addNodes H nodes p w = addNodes H nodes' p w.
Proof.
  intros Hsame. unfold addNodes.
  rewrite (reduce_bounds_same_elements _ _ _ _ Hsame).
  destruct (_nodes (group w)) as [ms |]; simpl; [done |].
  simpl in Hsame.
  destruct nodes as [| x nodes], nodes' as [| y nodes']; simpl; try done.
  - exfalso. apply (elem_of_nil y), Hsame. left.
  - exfalso. apply (elem_of_nil x), Hsame. left.
Qed.

(** X14.  The fit overwrites all four slots from the nodes alone: when the
    call computes a box, the position and size the group had before do not
    matter, and a second call right after any call that returned normally
    returns the very same state. *)
Theorem addNodes_refits (nodes : list ref) (p : option number)
    (g : LGraphGroup) (h : gmap nat LGraphNode.t) (w1 : World) :
  addNodes H nodes p (Mk_world g h) = Returned w1 →
  addNodes H nodes p w1 = Returned w1
  ∧ (no_array (_nodes g) && (length nodes =? 0)%nat = false →
     ∀ b : Float32Array4,
       addNodes H nodes p (Mk_world (with_bounding b g) h) = Returned w1).
Proof.
  unfold addNodes. cbn [group heap].
  destruct (no_array (_nodes g) && (length nodes =? 0)%nat) eqn:Hguard.
  - intros [= <-]. cbn [group heap]. rewrite Hguard. by split.
  - destruct (reduce_bounds H h (default [] (_nodes g) ++ nodes) _)
      as [bounds |] eqn:Hred; [| done].
    intros [= <-]. split.
    + cbn [group heap]. cbn. rewrite Hguard, Hred. reflexivity.
    + intros _ b. cbn. rewrite Hguard, Hred. reflexivity.
Qed.

End Fit_more.

Section Fit_encloses.

Variable H : number.

Lemma rational_edges_split (ns : list LGraphNode.t) :
  Forall (has_rational_edges H) ns →
  Forall (fun n => ∃ q, edge_left n = Fin q) ns
  ∧ Forall (fun n => ∃ q, edge_top H n = Fin q) ns
  ∧ Forall (fun n => ∃ q, edge_right n = Fin q) ns
  ∧ Forall (fun n => ∃ q, edge_bottom H n = Fin q) ns.
Proof.
  intros Hall. repeat split; (eapply Forall_impl; [exact Hall |]);
    intros n (l & t & r & b & Hl & Ht & Hr & Hb); eauto.
Qed.


End Fit_encloses.

(** ** Further properties of loading and saving *)

Lemma buf_write_from_0 (l : list number) (b : Float32Array4) (i : nat) :
  (length l ≤ 4)%nat → (i < 4)%nat →
  buf_get i (buf_write_from 0 l b)
  = match l !! i with Some x => Some x | None => buf_get i b end.
Proof.
  intros Hlen Hi.
  destruct l as [| x0 [| x1 [| x2 [| x3 [| x4 l]]]]]; simpl in Hlen; try lia;
    destruct i as [| [| [| [| i]]]]; try lia; reflexivity.
Qed.



Lemma is_rounded_int (z : Z) : is_rounded z.
Proof. unfold is_rounded, num_of_Z. simpl. f_equal. apply Qcround_int. Qed.

(** ** The further properties at work on sample states *)

Lemma pin_unpin_only_flag_witness :
  flags fresh_group !! "pinned" = None
  ∧ unpin (pin fresh_group) = fresh_group.
Proof.
  assert (Hno : flags fresh_group !! "pinned" = None) by reflexivity.
  split; [exact Hno |].
  destruct (pin_unpin_only_flag fresh_group) as (_ & _ & _ & _ & _ & _ & Hback).
  exact (Hback Hno).
Defined.

Lemma pinned_interlude_witness :
  let cs := [Call_move 5%Z 7%Z false; Call_resize 1%Z 1%Z] in
  flags fresh_group !! "pinned" = None
  ∧ unpin (group (run_calls cs (Mk_world (pin fresh_group) sample_heap)))
    = fresh_group.
Proof.
  intros cs.
  assert (Hno : flags fresh_group !! "pinned" = None) by reflexivity.
  split; [exact Hno |].
  exact (proj1 (pinned_interlude fresh_group sample_heap cs Hno)).
Defined.


Lemma recomputeInsideNodes_without_graph_witness :
  let w := Mk_world (with_nodes (Some [1%nat; 3%nat]) fresh_group) sample_heap in
  _nodes (group w) = Some [1%nat; 3%nat]
  ∧ graph (group w) = None
  ∧ _nodes (group (world_of (recomputeInsideNodes sample_getBounding w)))
    = Some [].
Proof.
  intros w.
  assert (Hmem : _nodes (group w) = Some [1%nat; 3%nat]) by reflexivity.
  assert (Hgr : graph (group w) = None) by reflexivity.
  split; [exact Hmem |]. split; [exact Hgr |].
  rewrite (recomputeInsideNodes_without_graph sample_getBounding w
             [1%nat; 3%nat] Hmem Hgr).
  reflexivity.
Defined.

(** A group owned by a graph of the three sample nodes, with a stale member
    list. *)
Lemma sample_valid_graph :
  Forall (fun r => is_Some (sample_heap !! r)) [1%nat; 2%nat; 3%nat].
Proof. repeat (constructor; [by eexists |]). constructor. Defined.

Lemma sample_graph_NoDup : NoDup [1%nat; 2%nat; 3%nat].
Proof.
  apply NoDup_cons_2.
  - intros Hin. apply elem_of_cons in Hin as [Hin | Hin]; [discriminate Hin |].
    apply list_elem_of_singleton in Hin. discriminate Hin.
  - apply NoDup_cons_2; [| apply NoDup_singleton].
    intros Hin. apply list_elem_of_singleton in Hin. discriminate Hin.
Defined.

Lemma recomputeInsideNodes_idempotent_witness :
  let g := Group "#AAA" "Group" None 24%Z (Buf 10%Z 10%Z 140%Z 80%Z)
                 (Some [2%nat]) (Some (LGraph.Make [1%nat; 2%nat; 3%nat]))
                 ∅ None in
  let w := Mk_world g sample_heap in
  let w1 := Mk_world (with_nodes (Some [1%nat; 3%nat]) g) sample_heap in
  recomputeInsideNodes sample_getBounding w = Returned w1
  ∧ recomputeInsideNodes sample_getBounding w1 = Returned w1.
Proof.
  intros g w w1.
  assert (Hfirst : recomputeInsideNodes sample_getBounding w = Returned w1)
    by reflexivity.
  split; [exact Hfirst |].
  exact (recomputeInsideNodes_idempotent sample_getBounding w w1 Hfirst).
Defined.

Lemma recompute_then_move_witness :
  let g := Group "#AAA" "Group" None 24%Z (Buf 10%Z 10%Z 140%Z 80%Z)
                 (Some [2%nat]) (Some (LGraph.Make [1%nat; 2%nat; 3%nat]))
                 ∅ None in
  let w := Mk_world g sample_heap in
  pinned g = false
  ∧ NoDup [1%nat; 2%nat; 3%nat]
  ∧ ∃ w1 w2 : World,
      recomputeInsideNodes sample_getBounding w = Returned w1
      ∧ move 5%Z 7%Z false w1 = Returned w2
      ∧ heap w2 !! 2%nat = Some collapsed_node
      ∧ heap w2 !! 3%nat = Some (shift_node 5%Z 7%Z reroute_node).
Proof.
  intros g w.
  assert (Hpin : pinned g = false) by reflexivity.
  split; [exact Hpin |]. split; [exact sample_graph_NoDup |].
  destruct (recompute_then_move sample_getBounding w [2%nat]
              (LGraph.Make [1%nat; 2%nat; 3%nat]) 5%Z 7%Z
              Hpin eq_refl eq_refl sample_valid_graph sample_graph_NoDup)
    as (w1 & w2 & Hrec & Hmove & Hheap).
  exists w1, w2. split; [exact Hrec |]. split; [exact Hmove |]. split.
  - rewrite (Hheap 2%nat collapsed_node eq_refl). reflexivity.
  - rewrite (Hheap 3%nat reroute_node eq_refl). reflexivity.
Defined.

Lemma addNodes_same_nodes_witness :
  let w := Mk_world (with_nodes (Some [1%nat]) fresh_group) sample_heap in
  addNodes 30%Z [2%nat; 3%nat; 2%nat; 1%nat] None w
  = addNodes 30%Z [3%nat; 2%nat] None w.
Proof.
  intros w.
  apply (addNodes_same_nodes 30%Z [2%nat; 3%nat; 2%nat; 1%nat]
           [3%nat; 2%nat] None w).
  intros r. simpl. rewrite !elem_of_cons, !elem_of_nil. tauto.
Defined.

Lemma addNodes_refits_witness :
  let g := with_nodes (Some [1%nat]) fresh_group in
  let w1 := world_of (addNodes 30%Z [2%nat; 3%nat] None
                        (Mk_world g sample_heap)) in
  addNodes 30%Z [2%nat; 3%nat] None (Mk_world g sample_heap) = Returned w1
  ∧ addNodes 30%Z [2%nat; 3%nat] None w1 = Returned w1
  ∧ addNodes 30%Z [2%nat; 3%nat] None
      (Mk_world (with_bounding (Buf NaN PosInf 1%Z 1%Z) g) sample_heap)
    = Returned w1.
Proof.
  intros g w1.
  assert (Hfirst : addNodes 30%Z [2%nat; 3%nat] None (Mk_world g sample_heap)
                   = Returned w1) by reflexivity.
  split; [exact Hfirst |].
  destruct (addNodes_refits 30%Z [2%nat; 3%nat] None g sample_heap w1 Hfirst)
    as [Hagain Hany].
  split; [exact Hagain |]. exact (Hany eq_refl (Buf NaN PosInf 1%Z 1%Z)).
Defined.




(** ** What the pin does not gate *)

(** X18.  The pin gates [move] and [resize] only.  [addNodes] and the two
    setters do to a pinned group exactly what they do to the same group
    without the pin: the call ends the same way and leaves the same state,
    the pin apart. *)
Theorem pin_does_not_gate_fit (H : number) (nodes : list ref)
    (p : option number) (v : option (list number)) (g : LGraphGroup)
    (h : gmap nat LGraphNode.t) :
  addNodes H nodes p (Mk_world (pin g) h)
  = match addNodes H nodes p (Mk_world g h) with
    | Returned w' => Returned (Mk_world (pin (group w')) (heap w'))
    | Threw e w' => Threw e (Mk_world (pin (group w')) (heap w'))
    end
  ∧ set_pos v (pin g) = pin (set_pos v g)
  ∧ set_size v (pin g) = pin (set_size v g).
Proof.
  split; [| split].
  - unfold addNodes. cbn [group heap]. cbn [pin with_flags _nodes].
    destruct (no_array (_nodes g) && (length nodes =? 0)%nat); [done |].
    by destruct (reduce_bounds H h (default [] (_nodes g) ++ nodes) _).
  - destruct v as [v |]; simpl; [| done]. by case_match.
  - destruct v as [v |]; simpl; [| done]. by case_match.
Qed.
